(** * The custom event emitter of [L5_events_and_emitters/emitter.js]

    The module exports one constructor, [Emitter], whose instances carry a
    single field [events], and two prototype methods, [on] and [emit].
    The embedding below follows the three functions statement by statement.
    Listener functions are JavaScript closures: they are represented by a
    reference (their identity) together with a table giving, for each
    reference, the calls its body makes back into the emitter. *)

From Stdlib Require Import Strings.Ascii.
From stdpp Require Import gmap strings list fin_maps.

Open Scope string_scope.
Open Scope list_scope.

(** ** JavaScript data *)

(** The identity of a function object.  Two registrations of the same
    callback carry the same reference. *)
Definition fnref := nat.

Inductive value :=
| VUndefined
| VBoolean (b : bool)
| VNumber (n : Z)
| VString (s : string)
| VFunction (f : fnref).

Inductive exn :=
| TypeError (msg : string)   (* raised by the language itself *)
| Uncaught (v : value).      (* raised by a [throw] statement of a listener *)

Inductive completion :=
| Return (v : value)
| Throw (e : exn).

(** What a property of [this.events] can hold.  [on] only ever stores an
    array of listeners or, for a name that [{}] inherits, the inherited
    member it has just read. *)
Inductive prop :=
| PArray (ls : list fnref)
| PBuiltin (name : string).

(** [this.events = {}] is an ordinary object: its prototype is
    [Object.prototype], so reading a property it does not own falls through
    to the members below.  Each is a function, except [__proto__], an
    accessor whose getter yields [Object.prototype] itself; all are truthy
    and none has a [push] or a [forEach]. *)
Definition Object_prototype_names : list string :=
  [ "constructor"; "__defineGetter__"; "__defineSetter__"; "hasOwnProperty";
    "__lookupGetter__"; "__lookupSetter__"; "isPrototypeOf";
    "propertyIsEnumerable"; "toString"; "valueOf"; "__proto__";
    "toLocaleString" ].

Definition inherited (k : string) : bool :=
  bool_decide (k ∈ Object_prototype_names).

Arguments inherited : simpl never.

(** [o[k]]: own property first, then the prototype; [None] is [undefined]. *)
Definition get (o : gmap string prop) (k : string) : option prop :=
  match o !! k with
  | Some v => Some v
  | None => if inherited k then Some (PBuiltin k) else None
  end.

(** [o[k] = v].  An own property is overwritten.  Otherwise the assignment
    creates one, except for [__proto__], where it runs the inherited setter;
    [on] only ever hands that setter the value the getter returned, which
    leaves the object as it was. *)
Definition set (o : gmap string prop) (k : string) (v : prop)
  : gmap string prop :=
  match o !! k with
  | Some _ => <[k := v]> o
  | None => if bool_decide (k = "__proto__") then o else <[k := v]> o
  end.

(** ** The emitter *)

Record Emitter := { events : gmap string prop }.

(** [function Emitter() { this.events = {} }] *)
Definition new_Emitter : Emitter := {| events := ∅ |}.

(** [Emitter.prototype.on = function(type, eventListener) {
       this.events[type] = this.events[type] || [];
       this.events[type].push(eventListener);
     }]
    The function has no [return]: a call that completes yields [undefined]. *)
Definition on (type : string) (eventListener : fnref) (this : Emitter)
  : completion * Emitter :=
  let v := match get (events this) type with
           | Some x => x            (* every object is truthy *)
           | None => PArray []
           end in
  let this1 := {| events := set (events this) type v |} in
  match get (events this1) type with
  | Some (PArray ls) =>
      (Return VUndefined,
       {| events := <[type := PArray (ls ++ [eventListener])]> (events this1) |})
  | _ => (Throw (TypeError "this.events[type].push is not a function"), this1)
  end.

(** ** Listener bodies *)

(** What the body of a listener does, as far as the emitter is concerned:
    register a listener on the emitter it closes over, or throw. *)
Inductive action :=
| CallOn (type : string) (l : fnref)   (* emitter.on(type, l); *)
| ThrowValue (v : value).              (* throw v; *)

(** The function objects of the program: the body behind each reference. *)
Definition program := fnref → list action.

Fixpoint exec (body : list action) (em : Emitter) : completion * Emitter :=
  match body with
  | [] => (Return VUndefined, em)
  | CallOn t l :: rest =>
      match on t l em with
      | (Return _, em') => exec rest em'
      | (Throw e, em') => (Throw e, em')
      end
  | ThrowValue v :: _ => (Throw (Uncaught v), em)
  end.

(** ** Dispatch *)

(** The outcome of a call of a method: how it completed, the emitter it left
    behind, and the listener invocations it made, each with the argument list
    the listener received. *)
Record run := {
  outcome : completion;
  emitter_after : Emitter;
  calls : list (fnref * list value)
}.

(** The array stored under [type], if there is one. *)
Definition array_at (em : Emitter) (type : string) : list fnref :=
  match events em !! type with
  | Some (PArray ls) => ls
  | _ => []
  end.

(** [Array.prototype.forEach] on the array object stored under [type]: the
    length is read once, before the first call; index [k] is then read from
    the array as it is at that moment (the array is shared with [on], which
    pushes onto it in place), and a missing index is skipped.  The callback
    [listner => { listner(); }] calls the element with no argument. *)
Fixpoint forEach (P : program) (type : string) (k n : nat) (em : Emitter)
  : run :=
  match n with
  | 0 => {| outcome := Return VUndefined; emitter_after := em; calls := [] |}
  | S n' =>
      match array_at em type !! k with
      | None => forEach P type (S k) n' em
      | Some listner =>
          match exec (P listner) em with
          | (Return _, em') =>
              let r := forEach P type (S k) n' em' in
              {| outcome := outcome r;
                 emitter_after := emitter_after r;
                 calls := (listner, []) :: calls r |}
          | (Throw e, em') =>
              {| outcome := Throw e;
                 emitter_after := em';
                 calls := [(listner, [])] |}
          end
      end
  end.

(** [Emitter.prototype.emit = function(type) {
       if(this.events[type]) {
         this.events[type].forEach(listner => { listner(); });
       }
     }]
    The function declares one parameter: whatever else the caller passes
    ([args]) is bound to nothing. *)
Definition emit (P : program) (type : string) (args : list value)
  (this : Emitter) : run :=
  match get (events this) type with
  | None =>
      {| outcome := Return VUndefined; emitter_after := this; calls := [] |}
  | Some (PArray ls) => forEach P type 0 (length ls) this
  | Some (PBuiltin _) =>
      {| outcome := Throw (TypeError "this.events[type].forEach is not a function");
         emitter_after := this;
         calls := [] |}
  end.

(** The listeners a run invoked, in the order of invocation. *)
Definition invoked (r : run) : list fnref := (calls r).*1.

(** ** The spec's dispatch, for comparison

    The design document asks [fire] to take a snapshot of the sequence and
    to invoke the entries of that snapshot in order.  [snapshot_pass] is that
    loop, over a list fixed before the first call; [emit] above is the code,
    which walks the live array. *)
Fixpoint snapshot_pass (P : program) (snapshot : list fnref) (em : Emitter)
  : run :=
  match snapshot with
  | [] => {| outcome := Return VUndefined; emitter_after := em; calls := [] |}
  | l :: rest =>
      match exec (P l) em with
      | (Return _, em') =>
          let r := snapshot_pass P rest em' in
          {| outcome := outcome r;
             emitter_after := emitter_after r;
             calls := (l, []) :: calls r |}
      | (Throw e, em') =>
          {| outcome := Throw e; emitter_after := em'; calls := [(l, [])] |}
      end
  end.

(** ** The interface of an instance *)

(** The methods [Emitter.prototype] defines: these two and no other. *)
Inductive method := m_on | m_emit.

Definition lift (r : completion * Emitter) : run :=
  {| outcome := r.1; emitter_after := r.2; calls := [] |}.

(** [emitter.m(type, f)] for a method [m] of the prototype.  [emit] binds its
    first argument and drops the second. *)
Definition invoke (P : program) (m : method) (type : string) (f : fnref)
  (em : Emitter) : run :=
  match m with
  | m_on => lift (on type f em)
  | m_emit => emit P type [VFunction f] em
  end.

(** A caller's use of an instance over time: a sequence of method calls, each
    of which may complete or throw; the caller carries on either way. *)
Inductive api_call :=
| Call_on (type : string) (l : fnref)
| Call_emit (type : string) (args : list value).

Definition do_call (P : program) (c : api_call) (em : Emitter) : run :=
  match c with
  | Call_on t l => lift (on t l em)
  | Call_emit t args => emit P t args em
  end.

Fixpoint do_calls (P : program) (cs : list api_call) (em : Emitter)
  : Emitter :=
  match cs with
  | [] => em
  | c :: rest => do_calls P rest (emitter_after (do_call P c em))
  end.

(** ** Predicates on states and listener bodies *)

(** An inherited member is only ever stored under its own inherited name. *)
Definition well_formed (em : Emitter) : Prop :=
  ∀ k n, events em !! k = Some (PBuiltin n) → inherited k = true.

(** [em'] has every array of [em], possibly with more listeners at the end. *)
Definition grows (em em' : Emitter) : Prop :=
  ∀ k ls, events em !! k = Some (PArray ls) →
          ∃ ext, events em' !! k = Some (PArray (ls ++ ext)).

(** No array stored in the emitter is empty. *)
Definition no_empty_array (em : Emitter) : Prop :=
  ∀ k, events em !! k ≠ Some (PArray []).

(** A body with no [throw] whose registrations avoid the inherited names. *)
Definition quiet_action (a : action) : bool :=
  match a with
  | CallOn t _ => negb (inherited t)
  | ThrowValue _ => false
  end.

Definition no_throw (body : list action) : bool := forallb quiet_action body.

(** A body that never calls back into the emitter. *)
Definition registers (a : action) : bool :=
  match a with
  | CallOn _ _ => true
  | ThrowValue _ => false
  end.

Definition read_only (body : list action) : bool :=
  forallb (λ a, negb (registers a)) body.

(** How many times a run invoked [f]. *)
Definition times_invoked (f : fnref) (r : run) : nat :=
  length (filter (λ l, l = f) (invoked r)).

(** The argument lists the listeners of a run received. *)
Definition received (r : run) : list (list value) := (calls r).*2.

(** ** Statements of the design document, as predicates on the code *)

(** "[fire(e, ...args)] passes all of [args] to every listener of the pass." *)
Definition passes_arguments (P : program) (type : string) (args : list value)
  (em : Emitter) : Prop :=
  Forall (λ c, c.2 = args) (calls (emit P type args em)).

(** Registering [f] through method [m] on [em], then firing twice: the two
    passes. *)
Definition two_passes (P : program) (m : method) (type : string) (f : fnref)
  (em : Emitter) : run * run :=
  let r0 := invoke P m type f em in
  let r1 := emit P type [] (emitter_after r0) in
  let r2 := emit P type [] (emitter_after r1) in
  (r1, r2).

Definition total_invocations (P : program) (m : method) (type : string)
  (f : fnref) (em : Emitter) : nat :=
  let '(r1, r2) := two_passes P m type f em in
  times_invoked f r1 + times_invoked f r2.

(** "Method [m] is a [registerOnce]": after it, two dispatches invoke the
    callback once in total. *)
Definition registerOnce_contract (m : method) : Prop :=
  ∀ P type f, total_invocations P m type f new_Emitter = 1.

(** Calling method [m] with [(type, f)] right after [on(type, f)] on a new
    emitter: what the call returns, and what a dispatch invokes afterwards. *)
Definition after_removal (P : program) (m : method) (type : string)
  (f : fnref) : completion * list fnref :=
  let em1 := (on type f new_Emitter).2 in
  let r := invoke P m type f em1 in
  (outcome r, invoked (emit P type [] (emitter_after r))).

(** "Method [m] is an [unregister]": it returns [true] and the callback is
    gone. *)
Definition unregister_contract (m : method) : Prop :=
  ∀ P type f, after_removal P m type f = (Return (VBoolean true), []).

(** ** Sample programs *)

(** Listeners whose bodies do nothing the emitter can see. *)
Definition plain : program := λ _, [].

(** Listener 2 throws; the others are plain. *)
Definition second_throws : program :=
  λ l, match l with
       | 2 => [ThrowValue (VString "boom")]
       | _ => []
       end.

(** Listener 1 registers listener 9 for the event it listens to. *)
Definition registers_another : program :=
  λ l, match l with
       | 1 => [CallOn "tick" 9]
       | _ => []
       end.

(** ** Further predicates on the registry *)

(** Arrays are only ever stored under names that are not inherited. *)
Definition arrays_regular (em : Emitter) : Prop :=
  ∀ k ls, events em !! k = Some (PArray ls) → inherited k = false.

(** What [on(type, l)] leaves under the key [type], as a function of what was
    there: [None] when the key has no own property afterwards. *)
Definition slot_after (type : string) (l : fnref) (o : option prop)
  : option prop :=
  match o with
  | Some (PArray ls) => Some (PArray (ls ++ [l]))
  | Some (PBuiltin n) => Some (PBuiltin n)
  | None =>
      if inherited type
      then if bool_decide (type = "__proto__") then None
           else Some (PBuiltin type)
      else Some (PArray [l])
  end.

(** * The request listener of [L8_http_server/app2.js] *)

(** What [res.writeHead(statusCode, headers)] followed by [res.end(data)]
    sends. *)
Record response := {
  statusCode : nat;
  headers : list (string * string);
  data : string
}.

(** [const user = { name: "Anjan", age: 22, email: "anjan@example.com" }] *)
Definition user : list (string * value) :=
  [ ("name", VString "Anjan"); ("age", VNumber 22);
    ("email", VString "anjan@example.com") ].

(** The callback handed to [http.createServer]: a chain of [===] tests on
    [req.url], each branch writing a head and ending the response.
    [JSON.stringify] is the language's; it is taken as a parameter. *)
Definition requestListener (JSON_stringify : list (string * value) → string)
  (url : string) : response :=
  if String.eqb url "/" then
    {| statusCode := 200;
       headers := [("content-type", "text/plain")];
       data := "Home" |}
  else if String.eqb url "/api/user" then
    {| statusCode := 200;
       headers := [("content-type", "application/json")];
       data := JSON_stringify user |}
  else if String.eqb url "/login" then
    {| statusCode := 200;
       headers := [("content-type", "text/plain")];
       data := "Login Page" |}
  else if String.eqb url "signup" then
    {| statusCode := 200;
       headers := [("content-type", "text/plain")];
       data := "Signup Page" |}
  else
    {| statusCode := 404;
       headers := [("content-type", "text/html")];
       data := "<h1>404 Page Not Found</h1>" |}.

(** * The storage file name of [Multer/config/multerconfig.js] *)

(** One hexadecimal digit, from the four bits of a nibble, high bit first. *)
Definition hex_digit (b3 b2 b1 b0 : bool) : Ascii.ascii :=
  match b3, b2, b1, b0 with
  | false, false, false, false => "0"
  | false, false, false, true => "1"
  | false, false, true, false => "2"
  | false, false, true, true => "3"
  | false, true, false, false => "4"
  | false, true, false, true => "5"
  | false, true, true, false => "6"
  | false, true, true, true => "7"
  | true, false, false, false => "8"
  | true, false, false, true => "9"
  | true, false, true, false => "a"
  | true, false, true, true => "b"
  | true, true, false, false => "c"
  | true, true, false, true => "d"
  | true, true, true, false => "e"
  | true, true, true, true => "f"
  end%char.

(** [buf.toString("hex")]: two lower-case digits for each byte of the
    buffer, high nibble first. *)
Fixpoint toString_hex (buf : list Byte.byte) : string :=
  match buf with
  | [] => ""
  | b :: rest =>
      let '(b0, (b1, (b2, (b3, (b4, (b5, (b6, b7))))))) := Byte.to_bits b in
      String (hex_digit b7 b6 b5 b4)
        (String (hex_digit b3 b2 b1 b0) (toString_hex rest))
  end.

(** What the callback of [crypto.randomBytes] does with the [cb] multer gave
    to [filename]: it calls it, or it throws before it gets there. *)
Inductive filename_result :=
| Called (error : option exn) (fn : string)   (* cb(error, fn) *)
| Raised (e : exn).

(** [filename: function (req, file, cb) {
       crypto.randomBytes(12, function (err, name) {
         const fn = name.toString("hex") + path.extname(file.originalname)
         cb(null, fn);
       })
     }]
    as a function of what [randomBytes] hands its callback: [err], and
    [name], a buffer, or [undefined] when the bytes could not be had.
    [path.extname] is the library's; it is taken as a parameter. *)
Definition filename (extname : string → string) (originalname : string)
  (err : option exn) (name : option (list Byte.byte)) : filename_result :=
  match name with
  | Some buf => Called None (toString_hex buf +:+ extname originalname)
  | None =>
      Raised (TypeError "Cannot read properties of undefined (reading 'toString')")
  end.

(** * Small checks of the embedding *)

Example emit_greet :
  let P : program := λ _, [] in
  let em := (on "greet" 2 (on "greet" 1 new_Emitter).2).2 in
  invoked (emit P "greet" [] em) = [1; 2].
Proof. vm_compute. reflexivity. Qed.

Example toString_hex_bytes :
  toString_hex [Byte.x00; Byte.xff; Byte.x1a; Byte.xc4] = "00ff1ac4".
Proof. reflexivity. Qed.

Example on_result :
  on "greet" 1 new_Emitter
  = (Return VUndefined, {| events := {[ "greet" := PArray [1] ]} |}).
Proof. vm_compute. reflexivity. Qed.

(** * The method [on] *)

Lemma inherited_proto : inherited "__proto__" = true.
Proof. reflexivity. Qed.

Lemma on_array type l em ls :
  events em !! type = Some (PArray ls) →
  on type l em
  = (Return VUndefined,
     {| events := <[type := PArray (ls ++ [l])]> (events em) |}).
Proof.
  intros H. unfold on, get, set. rewrite H. cbn.
  rewrite lookup_insert_eq. by rewrite insert_insert_eq.
Qed.

Lemma on_fresh type l em :
  events em !! type = None → inherited type = false →
  on type l em
  = (Return VUndefined, {| events := <[type := PArray [l]]> (events em) |}).
Proof.
  intros H Hi. unfold on, get, set. rewrite H, Hi.
  case_bool_decide as Hp.
  - subst. by rewrite inherited_proto in Hi.
  - cbn. rewrite lookup_insert_eq. by rewrite insert_insert_eq.
Qed.

Lemma on_builtin type l em n :
  events em !! type = Some (PBuiltin n) →
  on type l em
  = (Throw (TypeError "this.events[type].push is not a function"),
     {| events := <[type := PBuiltin n]> (events em) |}).
Proof.
  intros H. unfold on, get, set. rewrite H. cbn.
  by rewrite lookup_insert_eq.
Qed.

Lemma on_inherited type l em :
  events em !! type = None → inherited type = true →
  on type l em
  = (Throw (TypeError "this.events[type].push is not a function"),
     {| events := set (events em) type (PBuiltin type) |}).
Proof.
  intros H Hi. unfold on, get, set. rewrite H, Hi.
  case_bool_decide as Hp; cbn.
  - by rewrite H.
  - by rewrite lookup_insert_eq.
Qed.

(** Every call of [on] falls under one of the four lemmas above. *)
Ltac on_cases type l em :=
  let ls := fresh "ls" in
  let n := fresh "n" in
  let Hlk := fresh "Hlk" in
  let Hi := fresh "Hi" in
  destruct (events em !! type) as [[ls|n]|] eqn:Hlk;
  [ rewrite (on_array type l em ls Hlk)
  | rewrite (on_builtin type l em n Hlk)
  | destruct (inherited type) eqn:Hi;
    [ rewrite (on_inherited type l em Hlk Hi)
    | rewrite (on_fresh type l em Hlk Hi) ] ].

Lemma on_Return_events type l em v em' :
  on type l em = (Return v, em') →
  v = VUndefined
  ∧ events em' = <[type := PArray (array_at em type ++ [l])]> (events em).
Proof.
  unfold array_at.
  on_cases type l em; intros [= <- <-]; by rewrite ?Hlk.
Qed.

Lemma on_Return_array type l em v em' :
  on type l em = (Return v, em') →
  array_at em' type = array_at em type ++ [l].
Proof.
  intros [_ H]%on_Return_events. unfold array_at at 1.
  by rewrite H, lookup_insert_eq.
Qed.

Lemma on_returns type l em :
  well_formed em → inherited type = false →
  on type l em
  = (Return VUndefined,
     {| events := <[type := PArray (array_at em type ++ [l])]> (events em) |}).
Proof.
  intros Hwf Hi. unfold array_at.
  destruct (events em !! type) as [[ls|n]|] eqn:Hlk.
  - by apply on_array.
  - apply Hwf in Hlk. congruence.
  - by apply on_fresh.
Qed.

(** [on] never removes a listener and never reorders an array. *)
Lemma grows_refl em : grows em em.
Proof. intros k ls H. exists []. by rewrite app_nil_r. Qed.

Lemma grows_trans em1 em2 em3 : grows em1 em2 → grows em2 em3 → grows em1 em3.
Proof.
  intros H12 H23 k ls H.
  destruct (H12 k ls H) as [e1 H1]. destruct (H23 k _ H1) as [e2 H2].
  exists (e1 ++ e2). by rewrite app_assoc.
Qed.

Lemma grows_insert_other em k v :
  (∀ ls, events em !! k ≠ Some (PArray ls)) →
  grows em {| events := <[k := v]> (events em) |}.
Proof.
  intros Hk j ls H. exists []. rewrite app_nil_r. cbn.
  rewrite lookup_insert_ne; [done|]. intros ->. by eapply Hk.
Qed.

Lemma on_grows type l em : grows em (on type l em).2.
Proof.
  on_cases type l em; cbn.
  - intros k xs H. cbn. destruct (decide (type = k)) as [<-|Hne].
    + exists [l]. rewrite lookup_insert_eq. congruence.
    + exists []. by rewrite lookup_insert_ne, app_nil_r.
  - apply grows_insert_other. intros xs. congruence.
  - unfold set. rewrite Hlk. case_bool_decide.
    + destruct em. apply grows_refl.
    + apply grows_insert_other. intros xs. congruence.
  - apply grows_insert_other. intros xs. congruence.
Qed.

Lemma new_Emitter_well_formed : well_formed new_Emitter.
Proof. intros k n. cbn. by rewrite lookup_empty. Qed.

Lemma on_well_formed type l em :
  well_formed em → well_formed (on type l em).2.
Proof.
  intros Hwf. on_cases type l em; cbn; intros k m; cbn.
  - destruct (decide (type = k)) as [<-|Hne].
    + by rewrite lookup_insert_eq.
    + rewrite lookup_insert_ne by done. apply Hwf.
  - destruct (decide (type = k)) as [<-|Hne].
    + intros _. by eapply Hwf.
    + rewrite lookup_insert_ne by done. apply Hwf.
  - unfold set. rewrite Hlk. case_bool_decide; [apply Hwf|].
    destruct (decide (type = k)) as [<-|Hne]; [done|].
    rewrite lookup_insert_ne by done. apply Hwf.
  - destruct (decide (type = k)) as [<-|Hne].
    + by rewrite lookup_insert_eq.
    + rewrite lookup_insert_ne by done. apply Hwf.
Qed.

(** * Listener bodies *)

Lemma exec_grows body : ∀ em, grows em (exec body em).2.
Proof.
  induction body as [|[t l|v] rest IH]; intros em; cbn.
  - apply grows_refl.
  - pose proof (on_grows t l em) as Hg.
    destruct (on t l em) as [[u|e] em']; cbn in *; [|done].
    eapply grows_trans; [exact Hg | apply IH].
  - apply grows_refl.
Qed.

Lemma exec_well_formed body :
  ∀ em, well_formed em → well_formed (exec body em).2.
Proof.
  induction body as [|[t l|v] rest IH]; intros em Hwf; cbn; [done| |done].
  pose proof (on_well_formed t l em Hwf) as Hw.
  destruct (on t l em) as [[u|e] em']; cbn in *; [|done].
  by apply IH.
Qed.

Lemma exec_no_throw body :
  ∀ em, well_formed em → no_throw body = true →
        (exec body em).1 = Return VUndefined.
Proof.
  induction body as [|[t l|v] rest IH]; intros em Hwf Hq; cbn in *;
    [done| |done].
  apply andb_prop in Hq as [Ht Hq]. apply negb_true_iff in Ht.
  pose proof (on_well_formed t l em Hwf) as Hw.
  rewrite (on_returns t l em Hwf Ht) in *. by apply IH.
Qed.

Lemma exec_throws pre v rest :
  ∀ em, well_formed em → no_throw pre = true →
        (exec (pre ++ ThrowValue v :: rest) em).1 = Throw (Uncaught v).
Proof.
  induction pre as [|[t l|w] pre IH]; intros em Hwf Hq; cbn in *;
    [done| |done].
  apply andb_prop in Hq as [Ht Hq]. apply negb_true_iff in Ht.
  pose proof (on_well_formed t l em Hwf) as Hw.
  rewrite (on_returns t l em Hwf Ht) in *. by apply IH.
Qed.

Lemma exec_read_only body em :
  read_only body = true → (exec body em).2 = em.
Proof.
  destruct body as [|[t l|v] rest]; cbn; [done|discriminate|done].
Qed.

(** * A pass over a fixed list *)

Section SnapshotPass.
Context (P : program).

Lemma snapshot_pass_args ls :
  ∀ em, Forall (λ c, c.2 = []) (calls (snapshot_pass P ls em)).
Proof.
  induction ls as [|l ls IH]; intros em; cbn; [constructor|].
  destruct (exec (P l) em) as [[u|e] em']; cbn.
  - constructor; [done | apply IH].
  - by repeat constructor.
Qed.

Lemma snapshot_pass_prefix ls :
  ∀ em, invoked (snapshot_pass P ls em) `prefix_of` ls.
Proof.
  unfold invoked.
  induction ls as [|l ls IH]; intros em; cbn; [done|].
  destruct (exec (P l) em) as [[u|e] em']; cbn.
  - apply prefix_cons, IH.
  - apply prefix_cons, prefix_nil.
Qed.

Lemma snapshot_pass_grows ls :
  ∀ em, grows em (emitter_after (snapshot_pass P ls em)).
Proof.
  induction ls as [|l ls IH]; intros em; cbn; [apply grows_refl|].
  pose proof (exec_grows (P l) em) as Hg.
  destruct (exec (P l) em) as [[u|e] em']; cbn in *; [|done].
  eapply grows_trans; [exact Hg | apply IH].
Qed.

Lemma snapshot_pass_well_formed ls :
  ∀ em, well_formed em →
        well_formed (emitter_after (snapshot_pass P ls em)).
Proof.
  induction ls as [|l ls IH]; intros em Hwf; cbn; [done|].
  pose proof (exec_well_formed (P l) em Hwf) as Hw.
  destruct (exec (P l) em) as [[u|e] em']; cbn in *; [|done].
  by apply IH.
Qed.

(** When no listener of the list throws, the pass invokes the whole list
    and returns. *)
Lemma snapshot_pass_no_throw ls :
  ∀ em, well_formed em →
        Forall (λ l, no_throw (P l) = true) ls →
        outcome (snapshot_pass P ls em) = Return VUndefined
        ∧ invoked (snapshot_pass P ls em) = ls.
Proof.
  unfold invoked.
  induction ls as [|l ls IH]; intros em Hwf Hq; cbn; [done|].
  apply Forall_cons in Hq as [Hl Hq].
  pose proof (exec_no_throw (P l) em Hwf Hl) as Hr.
  pose proof (exec_well_formed (P l) em Hwf) as Hw.
  destruct (exec (P l) em) as [c em']; cbn in *; subst c; cbn.
  destruct (IH em' Hw Hq) as [-> ->]. done.
Qed.

(** The first listener that throws ends the pass: its error is the
    outcome, and nothing after it is invoked. *)
Lemma snapshot_pass_abort pre t post qs v rest :
  ∀ em, well_formed em →
        Forall (λ l, no_throw (P l) = true) pre →
        P t = qs ++ ThrowValue v :: rest → no_throw qs = true →
        outcome (snapshot_pass P (pre ++ t :: post) em) = Throw (Uncaught v)
        ∧ invoked (snapshot_pass P (pre ++ t :: post) em) = pre ++ [t].
Proof.
  unfold invoked.
  induction pre as [|l pre IH]; intros em Hwf Hq Ht Hqs; cbn.
  - pose proof (exec_throws qs v rest em Hwf Hqs) as Hr.
    rewrite Ht. destruct (exec _ em) as [c em']; cbn in *. by subst c.
  - apply Forall_cons in Hq as [Hl Hq].
    pose proof (exec_no_throw (P l) em Hwf Hl) as Hr.
    pose proof (exec_well_formed (P l) em Hwf) as Hw.
    destruct (exec (P l) em) as [c em']; cbn in *; subst c; cbn.
    destruct (IH em' Hw Hq Ht Hqs) as [-> ->]. done.
Qed.

(** When the listeners a pass invokes do not call back into the emitter,
    the pass leaves it as it is. *)
Lemma snapshot_pass_read_only ls :
  ∀ em, Forall (λ l, read_only (P l) = true)
               (invoked (snapshot_pass P ls em)) →
        emitter_after (snapshot_pass P ls em) = em.
Proof.
  unfold invoked.
  induction ls as [|l ls IH]; intros em Hq; cbn in *; [done|].
  pose proof (exec_read_only (P l) em) as He.
  destruct (exec (P l) em) as [[u|e] em']; cbn in *;
    apply Forall_cons in Hq as [Hl Hq]; rewrite (He Hl) in *; [|done].
  by apply IH.
Qed.

(** * The loop of [emit] *)

(** Walking the live array by index, up to the length read at the start,
    visits the entries that were there at the start: listeners only ever
    push onto the array. *)
Lemma forEach_snapshot type n :
  ∀ (k : nat) em ls,
    events em !! type = Some (PArray ls) → (k + n ≤ length ls)%nat →
    forEach P type k n em = snapshot_pass P (take n (drop k ls)) em.
Proof.
  induction n as [|n IH]; intros k em ls Hlk Hlen; cbn.
  - by rewrite take_0.
  - unfold array_at. rewrite Hlk.
    destruct (lookup_lt_is_Some_2 ls k) as [x Hx]; [lia|].
    rewrite Hx, (drop_S _ _ _ Hx). cbn.
    pose proof (exec_grows (P x) em) as Hg.
    destruct (exec (P x) em) as [[u|e] em']; cbn in *; [|done].
    destruct (Hg _ _ Hlk) as [ext Hext].
    rewrite (IH (S k) em' (ls ++ ext) Hext).
    + rewrite drop_app_le by lia.
      rewrite take_app_le; [done|]. rewrite length_drop. lia.
    + rewrite length_app. lia.
Qed.

Lemma emit_snapshot type args em ls :
  events em !! type = Some (PArray ls) →
  emit P type args em = snapshot_pass P ls em.
Proof.
  intros Hlk. unfold emit, get. rewrite Hlk.
  rewrite (forEach_snapshot type (length ls) 0 em ls Hlk) by lia.
  by rewrite drop_0, firstn_all.
Qed.

(** [emit] on any state: the three ways the lookup can go. *)
Lemma emit_cases type args em :
  (∃ ls, events em !! type = Some (PArray ls)
         ∧ emit P type args em = snapshot_pass P ls em)
  ∨ (array_at em type = []
     ∧ emitter_after (emit P type args em) = em
     ∧ calls (emit P type args em) = []).
Proof.
  destruct (events em !! type) as [[ls|n]|] eqn:Hlk.
  - left. exists ls. split; [done|]. by apply emit_snapshot.
  - right. unfold array_at, emit, get. by rewrite Hlk.
  - right. unfold array_at, emit, get. rewrite Hlk.
    by destruct (inherited type).
Qed.

Lemma emit_grows type args em :
  grows em (emitter_after (emit P type args em)).
Proof.
  destruct (emit_cases type args em) as [(ls & _ & ->)|(_ & -> & _)].
  - apply snapshot_pass_grows.
  - apply grows_refl.
Qed.

Lemma emit_well_formed type args em :
  well_formed em → well_formed (emitter_after (emit P type args em)).
Proof.
  intros Hwf.
  destruct (emit_cases type args em) as [(ls & _ & ->)|(_ & -> & _)].
  - by apply snapshot_pass_well_formed.
  - done.
Qed.

(** X14.  Whatever the listeners do, a dispatch of [type] invokes only
    entries of the array stored under [type] when it began, in their order
    and each at most as often as it is stored: the listeners invoked are an
    initial segment of that array. *)
Lemma emit_invoked_prefix type args em :
  invoked (emit P type args em) `prefix_of` array_at em type.
Proof.
  destruct (emit_cases type args em) as [(ls & Hlk & ->)|(_ & _ & Hc)].
  - unfold array_at. rewrite Hlk. apply snapshot_pass_prefix.
  - unfold invoked. rewrite Hc. apply prefix_nil.
Qed.

(** With listeners that do not throw, a pass over a well-formed emitter
    returns and invokes exactly the array stored under the type. *)
Lemma emit_no_throw type args em :
  well_formed em → inherited type = false →
  Forall (λ l, no_throw (P l) = true) (array_at em type) →
  outcome (emit P type args em) = Return VUndefined
  ∧ invoked (emit P type args em) = array_at em type.
Proof.
  intros Hwf Hi Hq. unfold array_at in *.
  destruct (events em !! type) as [[ls|n]|] eqn:Hlk.
  - rewrite (emit_snapshot _ _ _ _ Hlk). by apply snapshot_pass_no_throw.
  - apply Hwf in Hlk. congruence.
  - unfold emit, get. by rewrite Hlk, Hi.
Qed.

End SnapshotPass.

(** * What survives in the arrays *)

Lemma grows_array_prefix em em' type :
  grows em em' → array_at em type `prefix_of` array_at em' type.
Proof.
  intros Hg. unfold array_at.
  destruct (events em !! type) as [[ls|n]|] eqn:Hlk; try apply prefix_nil.
  destruct (Hg _ _ Hlk) as [ext ->]. by exists ext.
Qed.

Lemma grows_elem em em' type (f : fnref) :
  grows em em' → f ∈ array_at em type → f ∈ array_at em' type.
Proof.
  intros Hg Hf. destruct (grows_array_prefix em em' type Hg) as [ext ->].
  apply elem_of_app. by left.
Qed.

Lemma exec_registers body type (g : fnref) :
  ∀ em, well_formed em → no_throw body = true → CallOn type g ∈ body →
        g ∈ array_at (exec body em).2 type.
Proof.
  induction body as [|[t l|v] rest IH]; intros em Hwf Hq Hin; cbn in *.
  - by apply elem_of_nil in Hin.
  - apply andb_prop in Hq as [Ht Hq]. apply negb_true_iff in Ht.
    pose proof (on_well_formed t l em Hwf) as Hw.
    pose proof (on_Return_array t l em VUndefined _ (on_returns t l em Hwf Ht))
      as Harr.
    rewrite (on_returns t l em Hwf Ht) in *.
    apply elem_of_cons in Hin as [[= <- <-]|Hin].
    + eapply grows_elem; [apply exec_grows|].
      rewrite Harr. apply elem_of_app. right. by apply list_elem_of_singleton.
    + by apply IH.
  - discriminate.
Qed.

Lemma snapshot_pass_registers P ls type (f g : fnref) :
  ∀ em, well_formed em → Forall (λ l, no_throw (P l) = true) ls →
        f ∈ ls → CallOn type g ∈ P f →
        g ∈ array_at (emitter_after (snapshot_pass P ls em)) type.
Proof.
  induction ls as [|l ls IH]; intros em Hwf Hq Hf Hg; cbn.
  - by apply elem_of_nil in Hf.
  - apply Forall_cons in Hq as [Hl Hq].
    pose proof (exec_no_throw (P l) em Hwf Hl) as Hr.
    pose proof (exec_well_formed (P l) em Hwf) as Hw.
    pose proof (exec_registers (P l) type g em Hwf Hl) as Hreg.
    destruct (exec (P l) em) as [c em']; cbn in *; subst c; cbn.
    apply elem_of_cons in Hf as [<-|Hf].
    + eapply grows_elem; [apply snapshot_pass_grows | by apply Hreg].
    + by apply IH.
Qed.

Lemma do_call_grows P c em : grows em (emitter_after (do_call P c em)).
Proof. destruct c; cbn; [apply on_grows | apply emit_grows]. Qed.

Lemma do_call_well_formed P c em :
  well_formed em → well_formed (emitter_after (do_call P c em)).
Proof.
  destruct c; cbn; [apply on_well_formed | apply emit_well_formed].
Qed.

Lemma do_calls_grows P cs : ∀ em, grows em (do_calls P cs em).
Proof.
  induction cs as [|c cs IH]; intros em; cbn; [apply grows_refl|].
  eapply grows_trans; [apply do_call_grows | apply IH].
Qed.

Lemma do_calls_well_formed P cs :
  ∀ em, well_formed em → well_formed (do_calls P cs em).
Proof.
  induction cs as [|c cs IH]; intros em Hwf; cbn; [done|].
  by apply IH, do_call_well_formed.
Qed.

(** Neither method has a [return] statement. *)
Lemma on_outcome type l em :
  (on type l em).1 = Return VUndefined ∨ ∃ e, (on type l em).1 = Throw e.
Proof. on_cases type l em; cbn; eauto. Qed.

Lemma snapshot_pass_outcome P ls :
  ∀ em, outcome (snapshot_pass P ls em) = Return VUndefined
        ∨ ∃ e, outcome (snapshot_pass P ls em) = Throw e.
Proof.
  induction ls as [|l ls IH]; intros em; cbn; [by left|].
  destruct (exec (P l) em) as [[u|e] em']; cbn; [apply IH | eauto].
Qed.

Lemma emit_outcome P type args em :
  outcome (emit P type args em) = Return VUndefined
  ∨ ∃ e, outcome (emit P type args em) = Throw e.
Proof.
  destruct (events em !! type) as [[ls|n]|] eqn:Hlk.
  - rewrite (emit_snapshot _ _ _ _ _ Hlk). apply snapshot_pass_outcome.
  - unfold emit, get. rewrite Hlk. cbn. eauto.
  - unfold emit, get. rewrite Hlk. destruct (inherited type); cbn; eauto.
Qed.

(** * Arrays are never left empty *)

Lemma new_Emitter_no_empty_array : no_empty_array new_Emitter.
Proof. intros k. cbn. by rewrite lookup_empty. Qed.

Lemma insert_no_empty_array em k v :
  no_empty_array em → v ≠ PArray [] →
  no_empty_array {| events := <[k := v]> (events em) |}.
Proof.
  intros Hne Hv j. cbn. destruct (decide (k = j)) as [<-|Hkj].
  - rewrite lookup_insert_eq. congruence.
  - rewrite lookup_insert_ne by done. apply Hne.
Qed.

Lemma on_no_empty_array type l em :
  no_empty_array em → no_empty_array (on type l em).2.
Proof.
  intros Hne. on_cases type l em; cbn.
  - apply insert_no_empty_array; [done|]. intros [= H].
    by apply app_eq_nil in H as [_ ?].
  - by apply insert_no_empty_array.
  - unfold set. rewrite Hlk. case_bool_decide; [by destruct em|].
    by apply insert_no_empty_array.
  - by apply insert_no_empty_array.
Qed.

Lemma exec_no_empty_array body :
  ∀ em, no_empty_array em → no_empty_array (exec body em).2.
Proof.
  induction body as [|[t l|v] rest IH]; intros em Hne; cbn; [done| |done].
  pose proof (on_no_empty_array t l em Hne) as Hn.
  destruct (on t l em) as [[u|e] em']; cbn in *; [|done].
  by apply IH.
Qed.

Lemma snapshot_pass_no_empty_array P ls :
  ∀ em, no_empty_array em →
        no_empty_array (emitter_after (snapshot_pass P ls em)).
Proof.
  induction ls as [|l ls IH]; intros em Hne; cbn; [done|].
  pose proof (exec_no_empty_array (P l) em Hne) as Hn.
  destruct (exec (P l) em) as [[u|e] em']; cbn in *; [|done].
  by apply IH.
Qed.

Lemma emit_no_empty_array P type args em :
  no_empty_array em → no_empty_array (emitter_after (emit P type args em)).
Proof.
  intros Hne.
  destruct (emit_cases P type args em) as [(ls & _ & ->)|(_ & -> & _)].
  - by apply snapshot_pass_no_empty_array.
  - done.
Qed.

(** A dispatch on a name that is neither stored nor inherited does nothing
    and returns. *)
Lemma emit_absent P type args em :
  events em !! type = None → inherited type = false →
  emit P type args em
  = {| outcome := Return VUndefined; emitter_after := em; calls := [] |}.
Proof. intros Hlk Hi. unfold emit, get. by rewrite Hlk, Hi. Qed.

(** X8.  With nothing registered under a name that is not inherited, be the
    key missing or its array empty, a dispatch invokes nothing, changes
    nothing and returns [undefined], whatever arguments it is given. *)
Lemma emit_without_listeners P type args em :
  well_formed em → inherited type = false → array_at em type = [] →
  emit P type args em
  = {| outcome := Return VUndefined; emitter_after := em; calls := [] |}.
Proof.
  intros Hwf Hi Hnil. unfold array_at in Hnil.
  destruct (events em !! type) as [[ls|n]|] eqn:Hlk.
  - subst ls. by rewrite (emit_snapshot P type args em [] Hlk).
  - apply Hwf in Hlk. congruence.
  - by apply emit_absent.
Qed.

(** * States an instance can reach *)

Lemma do_call_no_empty_array P c em :
  no_empty_array em → no_empty_array (emitter_after (do_call P c em)).
Proof.
  destruct c; cbn; [apply on_no_empty_array | apply emit_no_empty_array].
Qed.

(** X16.  Starting from [new Emitter()], no sequence of calls of [on] and
    [emit], returning or throwing, and whatever the listeners do, leaves an
    empty array under a key. *)
Lemma reachable_no_empty_array P cs :
  no_empty_array (do_calls P cs new_Emitter).
Proof.
  generalize new_Emitter_no_empty_array. generalize new_Emitter.
  induction cs as [|c cs IH]; intros em Hne; cbn; [done|].
  by apply IH, do_call_no_empty_array.
Qed.

Lemma reachable_well_formed P cs : well_formed (do_calls P cs new_Emitter).
Proof. apply do_calls_well_formed, new_Emitter_well_formed. Qed.

(** X15.  Over any sequence of calls of [on] and [emit], returning or
    throwing, the array of a type only gains entries at its end: nothing is
    removed and nothing is reordered. *)
Lemma reachable_append_only P cs em type :
  array_at em type `prefix_of` array_at (do_calls P cs em) type.
Proof. apply grows_array_prefix, do_calls_grows. Qed.

(** * Order of dispatch *)

Lemma on_on_array type a b em v1 em1 v2 em2 :
  on type a em = (Return v1, em1) →
  on type b em1 = (Return v2, em2) →
  events em2 !! type = Some (PArray (array_at em type ++ [a; b]))
  ∧ (well_formed em → well_formed em2).
Proof.
  intros H1 H2.
  pose proof (on_Return_array _ _ _ _ _ H1) as A1.
  destruct (on_Return_events _ _ _ _ _ H2) as [_ E2]. split.
  - by rewrite E2, lookup_insert_eq, A1, <- app_assoc.
  - intros Hwf.
    pose proof (on_well_formed type a em Hwf) as W1. rewrite H1 in W1.
    pose proof (on_well_formed type b em1 W1) as W2. by rewrite H2 in W2.
Qed.

(** C1, at the failing input.  For the event identifier ["toString"], which
    [{}] inherits from [Object.prototype], both registrations throw at
    [push] and register nothing, and the dispatch that follows throws at
    [forEach]: neither [f1] nor [f2] is invoked, in any order. *)
Theorem on_on_emit_inherited_name P f1 f2 args :
  (on "toString" f1 new_Emitter).1
  = Throw (TypeError "this.events[type].push is not a function")
  ∧ (on "toString" f2 (on "toString" f1 new_Emitter).2).1
    = Throw (TypeError "this.events[type].push is not a function")
  ∧ outcome
      (emit P "toString" args
         (on "toString" f2 (on "toString" f1 new_Emitter).2).2)
    = Throw (TypeError "this.events[type].forEach is not a function")
  ∧ invoked
      (emit P "toString" args
         (on "toString" f2 (on "toString" f1 new_Emitter).2).2)
    = [].
Proof. repeat split; vm_compute; reflexivity. Qed.

(** X17.  Once [on(type, f1)] and then [on(type, f2)] have returned, a dispatch
    of [type] invokes listeners in the order of their registration: the
    listeners it invokes are always an initial segment of the earlier entries
    followed by [f1], [f2]; and when none of them throws, the dispatch
    returns having invoked all of them, [f1] before [f2]. *)
Theorem on_on_emit_order P em type f1 f2 args v1 em1 v2 em2 :
  on type f1 em = (Return v1, em1) →
  on type f2 em1 = (Return v2, em2) →
  invoked (emit P type args em2) `prefix_of` array_at em type ++ [f1; f2]
  ∧ (well_formed em →
     Forall (λ l, no_throw (P l) = true) (array_at em type ++ [f1; f2]) →
     outcome (emit P type args em2) = Return VUndefined
     ∧ invoked (emit P type args em2) = array_at em type ++ [f1; f2]).
Proof.
  intros H1 H2.
  destruct (on_on_array _ _ _ _ _ _ _ _ H1 H2) as [Hlk W2].
  rewrite (emit_snapshot P type args em2 _ Hlk). split.
  - apply snapshot_pass_prefix.
  - intros Hwf Hq. apply snapshot_pass_no_throw; auto.
Qed.

(** X17 on a new emitter: ["greet"] registered for listeners 1 and 2. *)
Lemma on_on_emit_order_witness :
  outcome (emit plain "greet" [] (on "greet" 2 (on "greet" 1 new_Emitter).2).2)
  = Return VUndefined
  ∧ invoked (emit plain "greet" [] (on "greet" 2 (on "greet" 1 new_Emitter).2).2)
    = [1; 2].
Proof.
  assert (H1 : on "greet" 1 new_Emitter
               = (Return VUndefined, (on "greet" 1 new_Emitter).2))
    by (vm_compute; reflexivity).
  assert (H2 : on "greet" 2 (on "greet" 1 new_Emitter).2
               = (Return VUndefined,
                  (on "greet" 2 (on "greet" 1 new_Emitter).2).2))
    by (vm_compute; reflexivity).
  destruct (on_on_emit_order plain new_Emitter "greet" 1 2 [] _ _ _ _ H1 H2)
    as [_ H].
  apply H.
  - apply new_Emitter_well_formed.
  - repeat constructor.
Defined.

(** * Arguments of a dispatch *)

(** C2 as stated fails: [emit("data", 1, 2, 3)] with one listener registered
    calls that listener with no argument at all. *)
Lemma emit_args_counterexample :
  received (emit plain "data" [VNumber 1; VNumber 2; VNumber 3]
              (on "data" 0 new_Emitter).2)
  = [[]]
  ∧ ¬ passes_arguments plain "data" [VNumber 1; VNumber 2; VNumber 3]
        (on "data" 0 new_Emitter).2.
Proof.
  split; [vm_compute; reflexivity|].
  intros H. vm_compute in H. apply Forall_cons in H as [H _]. discriminate H.
Qed.

(** C2, as the code has it.  [emit] declares the single parameter [type] and
    calls each listener as [listner()]: whatever further arguments a caller
    passes, every listener invoked in the pass receives an empty argument
    list, and the dispatch is the one [emit(type)] alone performs. *)
Theorem emit_ignores_arguments P type args em :
  Forall (λ c, c.2 = []) (calls (emit P type args em))
  ∧ emit P type args em = emit P type [] em.
Proof.
  split; [|reflexivity].
  destruct (emit_cases P type args em) as [(ls & _ & ->)|(_ & _ & ->)].
  - apply snapshot_pass_args.
  - constructor.
Qed.

(** * Registrations are permanent *)

Lemma emit_no_throw_array P type args em ls :
  well_formed em → events em !! type = Some (PArray ls) →
  Forall (λ l, no_throw (P l) = true) ls →
  outcome (emit P type args em) = Return VUndefined
  ∧ invoked (emit P type args em) = ls.
Proof.
  intros Hwf Hlk Hq. rewrite (emit_snapshot P type args em ls Hlk).
  by apply snapshot_pass_no_throw.
Qed.

(** C3 as stated fails.  Registering listener 7 for ["start"] through either
    method of the prototype and dispatching twice invokes it twice ([on]) or
    never ([emit]), not once; after the first dispatch the entry made by [on]
    is still in the array.  No method of the emitter is a [registerOnce]. *)
Lemma registerOnce_counterexample :
  (λ m, total_invocations plain m "start" 7 new_Emitter) <$> [m_on; m_emit]
  = [2; 0]
  ∧ array_at (emitter_after (two_passes plain m_on "start" 7 new_Emitter).1)
      "start" = [7]
  ∧ ¬ (∃ m, registerOnce_contract m).
Proof.
  split; [vm_compute; reflexivity|]. split; [vm_compute; reflexivity|].
  intros [m Hm]. specialize (Hm plain "start" 7).
  destruct m; vm_compute in Hm; discriminate Hm.
Qed.

(** C3, as the code has it.  The emitter has no one-shot registration: [on]
    is its only way to register, and its entries are permanent.  Once
    [on(type, f)] has returned, and with listeners that do not throw, each of
    two successive dispatches of [type] invokes [f], and [f] is still
    registered afterwards; when [f] is the only entry and its body does not
    register anything, the two dispatches invoke [f] exactly once each, which
    makes twice in total. *)
Theorem on_entry_is_permanent P em type f args1 args2 v em1 :
  well_formed em →
  on type f em = (Return v, em1) →
  (∀ l, no_throw (P l) = true) →
  let r1 := emit P type args1 em1 in
  let r2 := emit P type args2 (emitter_after r1) in
  f ∈ invoked r1
  ∧ f ∈ invoked r2
  ∧ f ∈ array_at (emitter_after r2) type
  ∧ (array_at em type = [] → read_only (P f) = true →
     invoked r1 = [f] ∧ invoked r2 = [f]).
Proof.
  intros Hwf Hon Hq r1 r2.
  pose proof (on_well_formed type f em Hwf) as W1. rewrite Hon in W1. cbn in W1.
  destruct (on_Return_events _ _ _ _ _ Hon) as [_ E1].
  assert (L1 : events em1 !! type = Some (PArray (array_at em type ++ [f])))
    by (by rewrite E1, lookup_insert_eq).
  assert (Hall : ∀ ls : list fnref, Forall (λ l, no_throw (P l) = true) ls)
    by (intros ls; apply Forall_forall; auto).
  destruct (emit_no_throw_array P type args1 em1 _ W1 L1 (Hall _)) as [_ I1].
  fold r1 in I1.
  pose proof (emit_well_formed P type args1 em1 W1) as W2. fold r1 in W2.
  pose proof (emit_grows P type args1 em1) as G1. fold r1 in G1.
  destruct (G1 _ _ L1) as [ext L2].
  destruct (emit_no_throw_array P type args2 _ _ W2 L2 (Hall _)) as [_ I2].
  fold r2 in I2.
  pose proof (emit_grows P type args2 (emitter_after r1)) as G2. fold r2 in G2.
  assert (F1 : f ∈ array_at em type ++ [f])
    by (apply elem_of_app; right; by apply list_elem_of_singleton).
  split; [by rewrite I1|].
  split; [rewrite I2; apply elem_of_app; by left|].
  split.
  - eapply grows_elem; [exact G2|]. unfold array_at. rewrite L2.
    apply elem_of_app. by left.
  - intros Hnil Hro. rewrite Hnil in *. cbn in *.
    assert (Hsame : emitter_after r1 = em1).
    { unfold r1 in *. rewrite (emit_snapshot P type args1 em1 _ L1) in *.
      apply snapshot_pass_read_only. rewrite I1. by repeat constructor. }
    split; [done|]. unfold r2. rewrite Hsame.
    destruct (emit_no_throw_array P type args2 em1 _ W1 L1 (Hall _)) as [_ I3].
    done.
Qed.

(** C3 as the code has it, on a new emitter with the single listener 7. *)
Lemma on_entry_is_permanent_witness :
  invoked (emit plain "start" [] (on "start" 7 new_Emitter).2) = [7]
  ∧ invoked (emit plain "start" []
               (emitter_after
                  (emit plain "start" [] (on "start" 7 new_Emitter).2)))
    = [7].
Proof.
  assert (H1 : on "start" 7 new_Emitter
               = (Return VUndefined, (on "start" 7 new_Emitter).2))
    by (vm_compute; reflexivity).
  destruct (on_entry_is_permanent plain new_Emitter "start" 7 [] [] _ _
              new_Emitter_well_formed H1 (λ _, eq_refl))
    as (_ & _ & _ & H).
  apply H; reflexivity.
Defined.

(** C4 as stated fails.  After [on("e", 7)] on a new emitter, calling either
    method of the prototype with [("e", 7)] returns [undefined], not [true],
    and the next dispatch of ["e"] still invokes listener 7.  No method of
    the emitter is an [unregister]. *)
Lemma unregister_counterexample :
  (λ m, after_removal plain m "e" 7) <$> [m_on; m_emit]
  = [(Return VUndefined, [7; 7]); (Return VUndefined, [7])]
  ∧ ¬ (∃ m, unregister_contract m).
Proof.
  split; [vm_compute; reflexivity|].
  intros [m Hm]. specialize (Hm plain "e" 7).
  destruct m; vm_compute in Hm; discriminate Hm.
Qed.

(** C4, as the code has it.  The emitter has no way to unregister: its two
    methods return [undefined] or throw, never a boolean, and neither removes
    an entry.  Once [on(type, f)] has returned, [f] stays in the array of
    [type] through every later sequence of calls, and, with listeners that do
    not throw, every later dispatch of [type] invokes it. *)
Theorem registered_listener_stays P em type f v em1 :
  on type f em = (Return v, em1) →
  (∀ c em' b, outcome (do_call P c em') ≠ Return (VBoolean b))
  ∧ (∀ cs, f ∈ array_at (do_calls P cs em1) type)
  ∧ (well_formed em → (∀ l, no_throw (P l) = true) →
     ∀ cs args, f ∈ invoked (emit P type args (do_calls P cs em1))).
Proof.
  intros Hon.
  destruct (on_Return_events _ _ _ _ _ Hon) as [_ E1].
  assert (L1 : events em1 !! type = Some (PArray (array_at em type ++ [f])))
    by (by rewrite E1, lookup_insert_eq).
  assert (F1 : f ∈ array_at em type ++ [f])
    by (apply elem_of_app; right; by apply list_elem_of_singleton).
  split; [|split].
  - intros [t l|t args] em' b; cbn.
    + destruct (on_outcome t l em') as [->|[e ->]]; discriminate.
    + destruct (emit_outcome P t args em') as [->|[e ->]]; discriminate.
  - intros cs. eapply grows_elem; [apply do_calls_grows|].
    unfold array_at at 1. by rewrite L1.
  - intros Hwf Hq cs args.
    pose proof (on_well_formed type f em Hwf) as W1. rewrite Hon in W1.
    pose proof (do_calls_well_formed P cs em1 W1) as W2.
    destruct (do_calls_grows P cs em1 _ _ L1) as [ext L2].
    destruct (emit_no_throw_array P type args _ _ W2 L2) as [_ ->].
    + apply Forall_forall; auto.
    + apply elem_of_app. by left.
Qed.

(** C4 as the code has it: listener 7 survives later calls. *)
Lemma registered_listener_stays_witness :
  7 ∈ array_at
        (do_calls plain [Call_emit "e" []; Call_on "other" 1; Call_emit "e" []]
           (on "e" 7 new_Emitter).2)
        "e".
Proof.
  assert (H1 : on "e" 7 new_Emitter
               = (Return VUndefined, (on "e" 7 new_Emitter).2))
    by (vm_compute; reflexivity).
  destruct (registered_listener_stays plain new_Emitter "e" 7 _ _ H1)
    as (_ & H & _).
  apply H.
Defined.

(** * Dispatch without listeners *)

(** C5, at the failing input.  On a new emitter nothing is registered for
    ["toString"], yet [this.events["toString"]] reads the function that
    [{}] inherits from [Object.prototype]: the guard of [emit] passes, and
    the call of [forEach] on that function raises a [TypeError]. *)
Theorem emit_inherited_name_throws P args :
  emit P "toString" args new_Emitter
  = {| outcome :=
         Throw (TypeError "this.events[type].forEach is not a function");
       emitter_after := new_Emitter;
       calls := [] |}.
Proof. reflexivity. Qed.

(** * A listener that throws *)

(** C6.  When the entries before [t] do not throw and the body of [t]
    reaches a [throw v], a dispatch invokes those entries and [t], in order,
    completes by throwing [v] to its caller, and invokes none of the entries
    after [t]. *)
Theorem emit_aborts_on_throw P em type args pre t post qs v rest :
  well_formed em →
  events em !! type = Some (PArray (pre ++ t :: post)) →
  Forall (λ l, no_throw (P l) = true) pre →
  P t = qs ++ ThrowValue v :: rest →
  no_throw qs = true →
  outcome (emit P type args em) = Throw (Uncaught v)
  ∧ invoked (emit P type args em) = pre ++ [t].
Proof.
  intros Hwf Hlk Hpre Ht Hqs.
  rewrite (emit_snapshot P type args em _ Hlk).
  by eapply snapshot_pass_abort.
Qed.

(** C6 with three listeners, the second of which throws ["boom"]. *)
Lemma emit_aborts_on_throw_witness :
  outcome (emit second_throws "job" [VNumber 1; VNumber 2]
             (on "job" 3 (on "job" 2 (on "job" 1 new_Emitter).2).2).2)
  = Throw (Uncaught (VString "boom"))
  ∧ invoked (emit second_throws "job" [VNumber 1; VNumber 2]
               (on "job" 3 (on "job" 2 (on "job" 1 new_Emitter).2).2).2)
    = [1; 2].
Proof.
  apply (emit_aborts_on_throw second_throws _ "job" _ [1] 2 [3] []
           (VString "boom") []).
  - repeat apply on_well_formed. apply new_Emitter_well_formed.
  - vm_compute. reflexivity.
  - repeat constructor.
  - reflexivity.
  - reflexivity.
Defined.

(** * Registration during a dispatch *)

(** C7.  A dispatch of [type] invokes the listeners that were in the array
    when it began, as a pass over a snapshot would: a listener [g] that one
    of them registers for [type] during the pass is pushed beyond the length
    [forEach] has read, so it is not among the listeners this pass invokes,
    and the next dispatch of [type] invokes it. *)
Theorem emit_defers_new_listener P em type args args' ls f g :
  well_formed em →
  events em !! type = Some (PArray ls) →
  (∀ l, no_throw (P l) = true) →
  f ∈ ls →
  CallOn type g ∈ P f →
  let r1 := emit P type args em in
  r1 = snapshot_pass P ls em
  ∧ invoked r1 = ls
  ∧ (g ∉ ls → g ∉ invoked r1)
  ∧ g ∈ invoked (emit P type args' (emitter_after r1)).
Proof.
  intros Hwf Hlk Hq Hf Hg r1.
  assert (Hall : ∀ xs : list fnref, Forall (λ l, no_throw (P l) = true) xs)
    by (intros xs; apply Forall_forall; auto).
  assert (Hr1 : r1 = snapshot_pass P ls em) by (by apply emit_snapshot).
  destruct (emit_no_throw_array P type args em ls Hwf Hlk (Hall _)) as [_ I1].
  fold r1 in I1.
  split; [done|]. split; [done|]. split; [by rewrite I1|].
  pose proof (emit_well_formed P type args em Hwf) as W1. fold r1 in W1.
  pose proof (emit_grows P type args em) as G1. fold r1 in G1.
  destruct (G1 _ _ Hlk) as [ext L1].
  destruct (emit_no_throw_array P type args' _ _ W1 L1 (Hall _)) as [_ ->].
  pose proof (snapshot_pass_registers P ls type f g em Hwf (Hall _) Hf Hg)
    as Hreg.
  rewrite <- Hr1 in Hreg. unfold array_at in Hreg. by rewrite L1 in Hreg.
Qed.

(** C7 with listener 1 registering listener 9 for the event being
    dispatched. *)
Lemma emit_defers_new_listener_witness :
  invoked (emit registers_another "tick" [] (on "tick" 1 new_Emitter).2) = [1]
  ∧ 9 ∈ invoked (emit registers_another "tick" []
                   (emitter_after
                      (emit registers_another "tick" []
                         (on "tick" 1 new_Emitter).2))).
Proof.
  assert (Hq : ∀ l, no_throw (registers_another l) = true)
    by (intros [|[|l]]; reflexivity).
  destruct (emit_defers_new_listener registers_another
              (on "tick" 1 new_Emitter).2 "tick" [] [] [1] 1 9)
    as (_ & H1 & _ & H2).
  - apply on_well_formed, new_Emitter_well_formed.
  - vm_compute. reflexivity.
  - exact Hq.
  - apply list_elem_of_singleton. reflexivity.
  - apply list_elem_of_singleton. reflexivity.
  - split; [exact H1 | exact H2].
Defined.

(** * The same callback registered twice *)

(** C8, at the failing input.  Registering the same callback twice for
    ["valueOf"], which [{}] inherits from [Object.prototype], creates no
    entry at all: both calls throw at [push], and the dispatch that follows
    throws at [forEach] without invoking the callback once. *)
Theorem on_twice_inherited_name P f args :
  (on "valueOf" f new_Emitter).1
  = Throw (TypeError "this.events[type].push is not a function")
  ∧ (on "valueOf" f (on "valueOf" f new_Emitter).2).1
    = Throw (TypeError "this.events[type].push is not a function")
  ∧ array_at (on "valueOf" f (on "valueOf" f new_Emitter).2).2 "valueOf" = []
  ∧ outcome
      (emit P "valueOf" args (on "valueOf" f (on "valueOf" f new_Emitter).2).2)
    = Throw (TypeError "this.events[type].forEach is not a function")
  ∧ times_invoked f
      (emit P "valueOf" args (on "valueOf" f (on "valueOf" f new_Emitter).2).2)
    = 0.
Proof. repeat split; vm_compute; reflexivity. Qed.

(** X18.  [on] does not look for duplicates: once two calls with the same
    callback have returned, they have pushed two entries, and a dispatch
    invokes the callback once for each, that is twice more often than for
    the entries the array held before. *)
Theorem on_same_listener_twice P em type f args v1 em1 v2 em2 :
  well_formed em →
  on type f em = (Return v1, em1) →
  on type f em1 = (Return v2, em2) →
  Forall (λ l, no_throw (P l) = true) (array_at em type ++ [f; f]) →
  array_at em2 type = array_at em type ++ [f; f]
  ∧ outcome (emit P type args em2) = Return VUndefined
  ∧ invoked (emit P type args em2) = array_at em type ++ [f; f]
  ∧ times_invoked f (emit P type args em2)
    = length (filter (λ l, l = f) (array_at em type)) + 2.
Proof.
  intros Hwf H1 H2 Hq.
  destruct (on_on_array _ _ _ _ _ _ _ _ H1 H2) as [L2 W2].
  destruct (emit_no_throw_array P type args em2 _ (W2 Hwf) L2 Hq) as [Ho Hi].
  split; [unfold array_at at 1; by rewrite L2|].
  split; [done|]. split; [done|].
  unfold times_invoked. rewrite Hi, filter_app, length_app. f_equal.
  rewrite !filter_cons_True by done. done.
Qed.

(** X18 on a new emitter: listener 5 registered twice, invoked twice. *)
Lemma on_same_listener_twice_witness :
  invoked (emit plain "greet" [] (on "greet" 5 (on "greet" 5 new_Emitter).2).2)
  = [5; 5]
  ∧ times_invoked 5
      (emit plain "greet" [] (on "greet" 5 (on "greet" 5 new_Emitter).2).2)
    = 2.
Proof.
  assert (H1 : on "greet" 5 new_Emitter
               = (Return VUndefined, (on "greet" 5 new_Emitter).2))
    by (vm_compute; reflexivity).
  assert (H2 : on "greet" 5 (on "greet" 5 new_Emitter).2
               = (Return VUndefined,
                  (on "greet" 5 (on "greet" 5 new_Emitter).2).2))
    by (vm_compute; reflexivity).
  destruct (on_same_listener_twice plain new_Emitter "greet" 5 [] _ _ _ _
              new_Emitter_well_formed H1 H2)
    as (_ & _ & Hi & Hn).
  - repeat constructor.
  - split; [exact Hi | exact Hn].
Defined.

(** * Keys of the registry *)

(** C9, at the failing input.  [on("toString", f)] on a new emitter reads the
    inherited function through [this.events[type] || []], stores it under
    the key, and fails at [push]: the call throws, [f] is not registered, and
    the key ["toString"] stays behind holding no listener sequence. *)
Theorem on_inherited_name_leaves_key f :
  on "toString" f new_Emitter
  = (Throw (TypeError "this.events[type].push is not a function"),
     {| events := {[ "toString" := PBuiltin "toString" ]} |}).
Proof. vm_compute. reflexivity. Qed.

(** * What a dispatch changes *)

(** C10.  [emit] itself writes nothing: when the listeners a dispatch
    invokes do not call back into the emitter, the emitter after the dispatch
    is the emitter before it, whether the dispatch returns or throws. *)
Theorem emit_leaves_registry_unchanged P em type args :
  Forall (λ l, read_only (P l) = true) (invoked (emit P type args em)) →
  emitter_after (emit P type args em) = em.
Proof.
  intros Hro.
  destruct (emit_cases P type args em) as [(ls & Hlk & He)|(_ & -> & _)].
  - rewrite He in *. by apply snapshot_pass_read_only.
  - done.
Qed.

(** C10 for a pass that the second listener aborts. *)
Lemma emit_leaves_registry_unchanged_witness :
  emitter_after
    (emit second_throws "job" []
       (on "job" 3 (on "job" 2 (on "job" 1 new_Emitter).2).2).2)
  = (on "job" 3 (on "job" 2 (on "job" 1 new_Emitter).2).2).2.
Proof.
  apply emit_leaves_registry_unchanged.
  vm_compute. repeat constructor.
Defined.

(** * Further properties of [on] *)

Lemma Emitter_eq (a b : Emitter) : events a = events b → a = b.
Proof. destruct a, b. cbn. by intros ->. Qed.

(** [on] rewrites the one key it is called with, as [slot_after] says. *)
Lemma on_events type l em :
  events (on type l em).2
  = partial_alter (slot_after type l) type (events em).
Proof.
  apply map_eq. intros k. rewrite lookup_partial_alter.
  on_cases type l em; cbn; unfold slot_after; rewrite ?Hi.
  - case_decide as Hk; [subst; by rewrite lookup_insert_eq|].
    by rewrite lookup_insert_ne.
  - case_decide as Hk; [subst; by rewrite lookup_insert_eq|].
    by rewrite lookup_insert_ne.
  - unfold set. rewrite Hlk.
    case_bool_decide; (case_decide as Hk; [subst k|]);
      rewrite ?lookup_insert_eq, ?lookup_insert_ne by done; done.
  - case_decide as Hk; [subst; by rewrite lookup_insert_eq|].
    by rewrite lookup_insert_ne.
Qed.

Lemma on_completion type l em :
  (on type l em).1
  = match slot_after type l (events em !! type) with
    | Some (PArray _) => Return VUndefined
    | _ => Throw (TypeError "this.events[type].push is not a function")
    end.
Proof.
  on_cases type l em; cbn; unfold slot_after; rewrite ?Hi; try done.
  by case_bool_decide.
Qed.

(** X1.  A call of [on] that returns has returned [undefined], has put the
    listener at the end of the array of its type, one entry longer than
    before, and has left every other key as it was. *)
Theorem on_registers_last type l em v em' :
  on type l em = (Return v, em') →
  v = VUndefined
  ∧ array_at em' type = array_at em type ++ [l]
  ∧ last (array_at em' type) = Some l
  ∧ length (array_at em' type) = S (length (array_at em type))
  ∧ (∀ k, k ≠ type → events em' !! k = events em !! k).
Proof.
  intros Hon. destruct (on_Return_events _ _ _ _ _ Hon) as [-> E].
  pose proof (on_Return_array _ _ _ _ _ Hon) as A.
  split; [done|]. split; [done|]. rewrite A.
  split; [apply last_snoc|]. split; [rewrite length_app; cbn; lia|].
  intros k Hk. by rewrite E, lookup_insert_ne.
Qed.

(** X1 at the second registration for ["greet"]. *)
Lemma on_registers_last_witness :
  array_at (on "greet" 2 (on "greet" 1 new_Emitter).2).2 "greet" = [1; 2].
Proof.
  assert (H : on "greet" 2 (on "greet" 1 new_Emitter).2
              = (Return VUndefined,
                 (on "greet" 2 (on "greet" 1 new_Emitter).2).2))
    by (vm_compute; reflexivity).
  destruct (on_registers_last _ _ _ _ _ H) as (_ & -> & _).
  vm_compute. reflexivity.
Defined.

(** X2.  Whether it returns or throws, [on(type, l)] touches no key other
    than [type]. *)
Theorem on_other_keys type l em k :
  k ≠ type → events (on type l em).2 !! k = events em !! k.
Proof.
  intros Hk. rewrite on_events, lookup_partial_alter_ne; done.
Qed.

(** X2 for a call that throws: the array of ["greet"] is still there. *)
Lemma on_other_keys_witness :
  events (on "valueOf" 3 (on "greet" 1 new_Emitter).2).2 !! "greet"
  = Some (PArray [1]).
Proof.
  rewrite (on_other_keys "valueOf" 3 (on "greet" 1 new_Emitter).2 "greet").
  - vm_compute. reflexivity.
  - intros H. discriminate H.
Defined.

(** X3.  A call of [on] that throws has registered nothing: every array of
    the emitter is what it was before the call. *)
Theorem on_failed_registers_nothing type l em e :
  (on type l em).1 = Throw e →
  ∀ k, array_at (on type l em).2 k = array_at em k.
Proof.
  intros Hthrow k. unfold array_at. rewrite on_events, lookup_partial_alter.
  case_decide as Hk; [subst k|done].
  rewrite on_completion in Hthrow.
  destruct (slot_after type l (events em !! type)) as [[xs|n]|] eqn:Hs;
    [discriminate| |];
    unfold slot_after in Hs;
    destruct (events em !! type) as [[ys|m]|]; try done;
    destruct (inherited type); try done.
Qed.

(** X3 on a new emitter holding one listener. *)
Lemma on_failed_registers_nothing_witness :
  array_at (on "hasOwnProperty" 4 (on "greet" 1 new_Emitter).2).2 "greet"
  = [1].
Proof.
  rewrite (on_failed_registers_nothing "hasOwnProperty" 4
             (on "greet" 1 new_Emitter).2
             (TypeError "this.events[type].push is not a function")).
  - vm_compute. reflexivity.
  - vm_compute. reflexivity.
Defined.

(** X4.  Registrations for different types commute: in either order they
    leave the same emitter, and each call completes as it would alone. *)
Theorem on_commute type1 type2 a b em :
  type1 ≠ type2 →
  (on type2 b (on type1 a em).2).2 = (on type1 a (on type2 b em).2).2
  ∧ (on type2 b (on type1 a em).2).1 = (on type2 b em).1
  ∧ (on type1 a (on type2 b em).2).1 = (on type1 a em).1.
Proof.
  intros Hne. split; [|split].
  - apply Emitter_eq, map_eq. intros k.
    rewrite !on_events, !lookup_partial_alter.
    repeat case_decide; subst; try done;
      rewrite ?lookup_partial_alter_ne by done; done.
  - rewrite !on_completion, on_events, lookup_partial_alter_ne; done.
  - rewrite !on_completion, on_events, lookup_partial_alter_ne; done.
Qed.

(** X4 for ["open"] and ["close"]. *)
Lemma on_commute_witness :
  (on "close" 2 (on "open" 1 new_Emitter).2).2
  = (on "open" 1 (on "close" 2 new_Emitter).2).2.
Proof.
  apply (on_commute "open" "close" 1 2 new_Emitter).
  intros H. discriminate H.
Defined.

(** * Inherited names on the states an instance can reach *)

Lemma new_Emitter_arrays_regular : arrays_regular new_Emitter.
Proof. intros k ls. cbn. by rewrite lookup_empty. Qed.

Lemma on_arrays_regular type l em :
  arrays_regular em → arrays_regular (on type l em).2.
Proof.
  intros Hreg k ls. rewrite on_events, lookup_partial_alter.
  case_decide as Hk; [subst k|apply Hreg].
  unfold slot_after.
  destruct (events em !! type) as [[ys|m]|] eqn:Hlk.
  - intros _. by eapply Hreg.
  - done.
  - destruct (inherited type); [by case_bool_decide|done].
Qed.

Lemma exec_arrays_regular body :
  ∀ em, arrays_regular em → arrays_regular (exec body em).2.
Proof.
  induction body as [|[t l|v] rest IH]; intros em Hreg; cbn; [done| |done].
  pose proof (on_arrays_regular t l em Hreg) as Hr.
  destruct (on t l em) as [[u|e] em']; cbn in *; [|done].
  by apply IH.
Qed.

Lemma snapshot_pass_arrays_regular P ls :
  ∀ em, arrays_regular em →
        arrays_regular (emitter_after (snapshot_pass P ls em)).
Proof.
  induction ls as [|l ls IH]; intros em Hreg; cbn; [done|].
  pose proof (exec_arrays_regular (P l) em Hreg) as Hr.
  destruct (exec (P l) em) as [[u|e] em']; cbn in *; [|done].
  by apply IH.
Qed.

Lemma do_calls_arrays_regular P cs :
  ∀ em, arrays_regular em → arrays_regular (do_calls P cs em).
Proof.
  induction cs as [|c cs IH]; intros em Hreg; cbn; [done|].
  apply IH. destruct c as [t l|t args]; cbn.
  - by apply on_arrays_regular.
  - destruct (emit_cases P t args em) as [(ls & _ & ->)|(_ & -> & _)];
      [by apply snapshot_pass_arrays_regular | done].
Qed.

(** X5.  On every state an instance can reach from [new Emitter()], a call
    [on(type, l)] returns exactly when [type] is not one of the names
    inherited from [Object.prototype]; for those names it throws, whatever
    was registered before. *)
Theorem on_returns_iff_not_inherited P cs type l :
  (on type l (do_calls P cs new_Emitter)).1 = Return VUndefined
  ↔ inherited type = false.
Proof.
  pose proof (reachable_well_formed P cs) as Hwf.
  pose proof (do_calls_arrays_regular P cs _ new_Emitter_arrays_regular)
    as Hreg.
  split.
  - rewrite on_completion. unfold slot_after.
    destruct (events _ !! type) as [[ys|m]|] eqn:Hlk.
    + intros _. by eapply Hreg.
    + done.
    + destruct (inherited type); [by case_bool_decide|done].
  - intros Hi. by rewrite (on_returns type l _ Hwf Hi).
Qed.

(** X6.  On every state an instance can reach, a dispatch of a name
    inherited from [Object.prototype] throws a [TypeError], invokes no
    listener and leaves the emitter as it was. *)
Theorem emit_inherited_always_throws P cs type args :
  inherited type = true →
  emit P type args (do_calls P cs new_Emitter)
  = {| outcome :=
         Throw (TypeError "this.events[type].forEach is not a function");
       emitter_after := do_calls P cs new_Emitter;
       calls := [] |}.
Proof.
  intros Hi.
  pose proof (do_calls_arrays_regular P cs _ new_Emitter_arrays_regular)
    as Hreg.
  unfold emit, get.
  destruct (events _ !! type) as [[ys|m]|] eqn:Hlk.
  - apply Hreg in Hlk. congruence.
  - done.
  - by rewrite Hi.
Qed.

(** X6 after a registration under that very name was attempted. *)
Lemma emit_inherited_always_throws_witness :
  outcome
    (emit plain "constructor" []
       (do_calls plain [Call_on "greet" 1; Call_on "constructor" 2]
          new_Emitter))
  = Throw (TypeError "this.events[type].forEach is not a function").
Proof.
  rewrite (emit_inherited_always_throws plain
             [Call_on "greet" 1; Call_on "constructor" 2] "constructor" []).
  - reflexivity.
  - reflexivity.
Defined.

(** * Further properties of [emit] *)

(** X7.  For any listeners, throwing or registering as they may, a dispatch
    over an emitter whose array for the type is [ls] is the pass over [ls]
    taken as a snapshot: entries pushed while it runs are not visited. *)
Theorem emit_is_snapshot_pass P type args em ls :
  events em !! type = Some (PArray ls) →
  emit P type args em = snapshot_pass P ls em.
Proof. apply emit_snapshot. Qed.

(** X7 for a listener that registers another during the pass. *)
Lemma emit_is_snapshot_pass_witness :
  emit registers_another "tick" [] (on "tick" 1 new_Emitter).2
  = snapshot_pass registers_another [1] (on "tick" 1 new_Emitter).2.
Proof.
  apply emit_is_snapshot_pass. vm_compute. reflexivity.
Defined.

(** X8 on a new emitter. *)
Lemma emit_without_listeners_witness :
  emit plain "greet" [VNumber 1] new_Emitter
  = {| outcome := Return VUndefined;
       emitter_after := new_Emitter;
       calls := [] |}.
Proof.
  apply emit_without_listeners.
  - apply new_Emitter_well_formed.
  - reflexivity.
  - reflexivity.
Defined.

(** * The request listener *)

Section RequestListener.
Context (JSON_stringify : list (string * value) → string).

(** X9.  Every request is answered: with status 200 when [req.url] is one of
    the four strings the listener compares against, and otherwise, whatever
    the url, with the 404 page. *)
Theorem requestListener_status url :
  ((url ∈ ["/"; "/api/user"; "/login"; "signup"])
   ∧ statusCode (requestListener JSON_stringify url) = 200)
  ∨ ((url ∉ ["/"; "/api/user"; "/login"; "signup"])
     ∧ requestListener JSON_stringify url
       = {| statusCode := 404;
            headers := [("content-type", "text/html")];
            data := "<h1>404 Page Not Found</h1>" |}).
Proof.
  unfold requestListener.
  destruct (String.eqb_spec url "/") as [->|H1];
    [left; split; [repeat constructor|done]|].
  destruct (String.eqb_spec url "/api/user") as [->|H2];
    [left; split; [repeat constructor|done]|].
  destruct (String.eqb_spec url "/login") as [->|H3];
    [left; split; [repeat constructor|done]|].
  destruct (String.eqb_spec url "signup") as [->|H4];
    [left; split; [repeat constructor|done]|].
  right. split; [|done].
  intros H. repeat (apply elem_of_cons in H as [H|H]; [done|]).
  by apply elem_of_nil in H.
Qed.

(** X10.  The signup branch tests [req.url] against ["signup"], without the
    leading slash: a url that begins with a slash never reaches it.  Such a
    request gets the home page, the user, the login page or the 404 page, and
    ["/signup"] itself gets the 404 page. *)
Theorem requestListener_signup_unreachable rest :
  (requestListener JSON_stringify (String "/" rest)
   = {| statusCode := 200;
        headers := [("content-type", "text/plain")];
        data := "Home" |}
   ∨ requestListener JSON_stringify (String "/" rest)
     = {| statusCode := 200;
          headers := [("content-type", "application/json")];
          data := JSON_stringify user |}
   ∨ requestListener JSON_stringify (String "/" rest)
     = {| statusCode := 200;
          headers := [("content-type", "text/plain")];
          data := "Login Page" |}
   ∨ requestListener JSON_stringify (String "/" rest)
     = {| statusCode := 404;
          headers := [("content-type", "text/html")];
          data := "<h1>404 Page Not Found</h1>" |})
  ∧ requestListener JSON_stringify "/signup"
    = {| statusCode := 404;
         headers := [("content-type", "text/html")];
         data := "<h1>404 Page Not Found</h1>" |}.
Proof.
  split; [|reflexivity].
  unfold requestListener.
  destruct (String.eqb (String "/" rest) "/"); [by left|].
  destruct (String.eqb (String "/" rest) "/api/user"); [by right; left|].
  destruct (String.eqb (String "/" rest) "/login"); [by right; right; left|].
  replace (String.eqb (String "/" rest) "signup") with false by reflexivity.
  by right; right; right.
Qed.

(** X11.  The routes are matched by equality with the whole of [req.url]: a
    login or user url followed by anything more, a query string or a
    trailing slash, gets the 404 page. *)
Theorem requestListener_exact_match suffix :
  suffix ≠ "" →
  requestListener JSON_stringify ("/login" +:+ suffix)
  = {| statusCode := 404;
       headers := [("content-type", "text/html")];
       data := "<h1>404 Page Not Found</h1>" |}
  ∧ requestListener JSON_stringify ("/api/user" +:+ suffix)
    = {| statusCode := 404;
         headers := [("content-type", "text/html")];
         data := "<h1>404 Page Not Found</h1>" |}.
Proof.
  intros Hs. destruct suffix as [|c s]; [done|].
  split; reflexivity.
Qed.

End RequestListener.

(** X11 for a query string. *)
Lemma requestListener_exact_match_witness :
  statusCode (requestListener (λ _, "{}") "/login?next=home") = 404.
Proof.
  destruct (requestListener_exact_match (λ _, "{}") "?next=home") as [H _].
  - intros E. discriminate E.
  - exact (f_equal statusCode H).
Defined.

(** * The storage file name *)

Lemma hex_digit_inj a3 a2 a1 a0 b3 b2 b1 b0 :
  hex_digit a3 a2 a1 a0 = hex_digit b3 b2 b1 b0 →
  a3 = b3 ∧ a2 = b2 ∧ a1 = b1 ∧ a0 = b0.
Proof.
  destruct a3, a2, a1, a0, b3, b2, b1, b0; cbn; intros H;
    first [discriminate H | done].
Qed.

Lemma hex_digit_alphabet b3 b2 b1 b0 :
  hex_digit b3 b2 b1 b0 ∈ String.list_ascii_of_string "0123456789abcdef".
Proof. destruct b3, b2, b1, b0; cbn; repeat constructor. Qed.

Lemma to_bits_inj (a b : Byte.byte) : Byte.to_bits a = Byte.to_bits b → a = b.
Proof.
  intros H. rewrite <- (Byte.of_bits_to_bits a), <- (Byte.of_bits_to_bits b).
  by rewrite H.
Qed.

Lemma toString_hex_length buf :
  String.length (toString_hex buf) = 2 * length buf.
Proof.
  induction buf as [|b buf IH]; cbn; [done|].
  destruct (Byte.to_bits b) as (b0 & b1 & b2 & b3 & b4 & b5 & b6 & b7).
  cbn. rewrite IH. lia.
Qed.

Lemma toString_hex_alphabet buf :
  Forall (λ c, c ∈ String.list_ascii_of_string "0123456789abcdef")
         (String.list_ascii_of_string (toString_hex buf)).
Proof.
  induction buf as [|b buf IH]; cbn; [constructor|].
  destruct (Byte.to_bits b) as (b0 & b1 & b2 & b3 & b4 & b5 & b6 & b7).
  cbn. repeat (constructor; [apply hex_digit_alphabet|]). exact IH.
Qed.

Lemma toString_hex_append_inj buf1 :
  ∀ buf2 s1 s2,
    length buf1 = length buf2 →
    toString_hex buf1 +:+ s1 = toString_hex buf2 +:+ s2 →
    buf1 = buf2 ∧ s1 = s2.
Proof.
  induction buf1 as [|a buf1 IH]; intros [|b buf2] s1 s2 Hlen Heq;
    cbn in *; try done.
  pose proof (to_bits_inj a b) as Hab.
  destruct (Byte.to_bits a) as (a0 & a1 & a2 & a3 & a4 & a5 & a6 & a7).
  destruct (Byte.to_bits b) as (b0 & b1 & b2 & b3 & b4 & b5 & b6 & b7).
  cbn in Heq. injection Heq as Hhi Hlo Hrest.
  apply hex_digit_inj in Hhi as (-> & -> & -> & ->).
  apply hex_digit_inj in Hlo as (-> & -> & -> & ->).
  destruct (IH buf2 s1 s2) as [-> ->]; [lia|done|].
  by rewrite Hab.
Qed.

Section Filename.
Context (extname : string → string).

(** X12.  [filename] never reports an error to multer.  Given a buffer, it
    calls [cb] with a null error and the hexadecimal text of that buffer,
    two lower-case digits per byte, from which the bytes can be read back,
    followed by the extension of the original name; nothing else of the
    original name is kept, so two names with one extension give one result.
    Given no buffer, it throws before it reaches [cb], whatever [err] was. *)
Theorem filename_shape originalname err buf :
  filename extname originalname err (Some buf)
  = Called None (toString_hex buf +:+ extname originalname)
  ∧ String.length (toString_hex buf) = 2 * length buf
  ∧ Forall (λ c, c ∈ String.list_ascii_of_string "0123456789abcdef")
           (String.list_ascii_of_string (toString_hex buf))
  ∧ (∀ buf', toString_hex buf' = toString_hex buf → buf' = buf)
  ∧ (∀ other err',
       extname other = extname originalname →
       filename extname other err' (Some buf)
       = filename extname originalname err (Some buf))
  ∧ filename extname originalname err None
    = Raised
        (TypeError "Cannot read properties of undefined (reading 'toString')").
Proof.
  split; [done|].
  split; [apply toString_hex_length|].
  split; [apply toString_hex_alphabet|].
  split; [|split; [|done]].
  - intros buf' Heq.
    destruct (toString_hex_append_inj buf' buf "" "") as [-> _];
      [|by rewrite Heq|done].
    pose proof (toString_hex_length buf') as L1.
    pose proof (toString_hex_length buf) as L2.
    rewrite Heq in L1. lia.
  - intros other err' Hext. unfold filename. by rewrite Hext.
Qed.

(** X13.  Two uploads get the same stored name only when their random bytes
    are the same and their extensions are the same: for buffers of one
    length, the name determines both. *)
Theorem filename_no_collision name1 err1 buf1 name2 err2 buf2 :
  length buf1 = length buf2 →
  filename extname name1 err1 (Some buf1)
  = filename extname name2 err2 (Some buf2) →
  buf1 = buf2 ∧ extname name1 = extname name2.
Proof.
  intros Hlen [= Heq]. by eapply toString_hex_append_inj.
Qed.

End Filename.

(** X13 for two uploads that drew the same bytes. *)
Lemma filename_no_collision_witness :
  [Byte.x2a; Byte.x07] = [Byte.x2a; Byte.x07] ∧ ".jpg" = ".jpg".
Proof.
  apply (filename_no_collision (λ _, ".jpg") "a.jpg" None
           [Byte.x2a; Byte.x07] "b.jpg" None [Byte.x2a; Byte.x07]).
  - reflexivity.
  - reflexivity.
Defined.
